(** * CallbacksLIB: a shallow embedding of callbacks.hpp

    The header defines three class templates:
    - [Callback<R, Args...>]: a callable paired with an integer id;
    - [Callbacks<R, Args...>]: a vector of callbacks plus the counter that
      issues ids, with register / deregister / invoke-all;
    - [CallbacksReturningAContainer] and [CallbacksReturningABoolean]: the
      two short-circuiting invocation loops layered on [Callbacks].

    Modelling choices.
    - [int] is a 32-bit two's complement integer, held in [Z].  The counter
      is a [std::atomic<int>]; its pre-increment is defined to wrap around
      (atomic arithmetic has no undefined results), which [wrap_int] writes
      out.
    - The parameter pack [CallbackArguments...] is one type [Args] (a tuple).
    - A [std::function<R(Args...)>] is a function that, given the arguments
      and the state of everything outside the registry that it can touch
      (captured objects, globals: the type [W]), returns a result and the new
      outside state.  Callables are total and do not throw, and [W] does not
      contain the registry that is being iterated.
    - Every call through [Callback::operator()] is recorded in a call log, so
      that "which callbacks ran, in which order, with which arguments" is an
      observable of the model.
    - The loop index of [deregister_callback] is a natural number: vectors
      with more than [INT_MAX] entries are outside the model.
    - [invokeCallbacks] and [operator()] have no [return] statement; they
      are modelled at the return type [void] only, where that is a normal
      return.  At any other return type the call is undefined behaviour. *)

From Stdlib Require Import ZArith List Lia.
From stdpp Require Import base list numbers.

Local Open Scope Z_scope.

(** ** 32-bit [int] *)

Module Int.

Definition MIN : Z := -2147483648.
Definition MAX : Z := 2147483647.
Definition MODULUS : Z := 4294967296.

(** The value of type [int] congruent to [x] modulo 2^32. *)
Definition wrap_int (x : Z) : Z := (x - MIN) mod MODULUS + MIN.

Definition in_range (x : Z) : Prop := MIN <= x <= MAX.

Arguments wrap_int : simpl never.

(** [std::atomic<int>::operator++()]: adds one to the stored value, wrapping,
    and returns the new value.  The pair is (value returned, value stored). *)
Definition atomic_pre_increment (stored : Z) : Z * Z :=
  let v := wrap_int (stored + 1) in (v, v).

End Int.

(** ** Computations that run callables *)

Section Exec.

Context {M : Type}.

(** A computation over a machine state [M] that returns an [A]. *)
Definition Exec (A : Type) : Type := M -> A * M.

Definition ret {A} (a : A) : Exec A := fun m => (a, m).

Definition bind {A B} (c : Exec A) (k : A -> Exec B) : Exec B :=
  fun m => let '(a, m') := c m in k a m'.

End Exec.

Arguments Exec : clear implicits.

Notation "'call' x := c 'in' k" := (bind c (fun x => k))
  (at level 10, x name, c at level 100, k at level 200).

(** ** The return type of [CallbacksReturningAContainer]

    That class template needs two things of [CallbackReturnType]: a default
    constructor (for the local [callbackReturn]) and a member [empty()]. *)

Module Container.

Class t (R : Type) : Type := {
  ctor : R;
  empty : R -> bool
}.

(** The standard sequence containers: [empty()] holds of exactly one value,
    the default-constructed one. *)
#[global] Instance of_list (A : Type) : t (list A) := {|
  ctor := [];
  empty := fun v => match v with [] => true | _ :: _ => false end
|}.

End Container.

(** ** The class templates *)

Section CallbacksLIB.

Context {W Args R : Type}.

(** [using CallbackFunctionType = std::function<R(Args...)>]. *)
Definition CallbackFunctionType : Type := Args -> W -> R * W.

(** [class Callback]: public members [m_id] and [m_callback]. *)
Record Callback : Type := mkCallback {
  m_id : Z;
  m_callback : CallbackFunctionType
}.

(** [class Callbacks]: protected members [m_callbacks] (a [std::vector]) and
    [m_lastAssignedCallback_ID] (a [std::atomic<int>]). *)
Record Callbacks : Type := mkCallbacks {
  m_callbacks : list Callback;
  m_lastAssignedCallback_ID : Z
}.

(** What an invocation can change: the outside state the callables act on,
    and the log of calls made through [Callback::operator()]. *)
Record Machine : Type := mkMachine {
  world : W;
  call_log : list (Callback * Args)
}.

(** [Callback::operator()(arguments...)]: [return m_callback(arguments...)]. *)
Definition Callback_call (cb : Callback) (arguments : Args) : Exec Machine R :=
  fun m =>
    let '(v, w) := m_callback cb arguments (world m) in
    (v, {| world := w; call_log := call_log m ++ [(cb, arguments)] |}).

(** *** [Callbacks] *)

(** [Callbacks(){}].  [m_callbacks] is default-constructed, hence empty.  The
    constructor body is empty and the counter's declaration carries no
    initialiser, so the counter holds what default-initialisation of a
    [std::atomic<int>] leaves there: zero where the atomic is
    value-initialised or the object is zero-initialised first, and otherwise
    whatever the storage held.  [stored] is that value. *)
Definition Callbacks_ctor (stored : Z) : Callbacks :=
  {| m_callbacks := []; m_lastAssignedCallback_ID := stored |}.

(** [int register_callback(CallbackFunctionType callback)]. *)
Definition register_callback (self : Callbacks) (callback : CallbackFunctionType)
  : Z * Callbacks :=
  let '(fresh, stored) := Int.atomic_pre_increment (m_lastAssignedCallback_ID self) in
  let newCallback := {| m_id := fresh; m_callback := callback |} in
  (m_id newCallback,
   {| m_callbacks := m_callbacks self ++ [newCallback];
      m_lastAssignedCallback_ID := stored |}).

(** The [for] loop of [deregister_callback]: [rest] is what remains of the
    vector from index [i] on; the answer is the index of the first entry
    whose id equals [callbackID]. *)
Fixpoint deregister_scan (rest : list Callback) (i : nat) (callbackID : Z)
  : option nat :=
  match rest with
  | [] => None
  | cb :: rest' =>
      if m_id cb =? callbackID then Some i
      else deregister_scan rest' (S i) callbackID
  end.

(** [bool deregister_callback(const int& callbackID)]:
    [m_callbacks.erase(m_callbacks.begin() + i); return true;] at the first
    match, [return false;] when the loop runs out. *)
Definition deregister_callback (self : Callbacks) (callbackID : Z)
  : bool * Callbacks :=
  match deregister_scan (m_callbacks self) 0 callbackID with
  | Some i =>
      (true,
       {| m_callbacks := delete i (m_callbacks self);
          m_lastAssignedCallback_ID := m_lastAssignedCallback_ID self |})
  | None => (false, self)
  end.

(** [void deregister_all_callbacks()]: [m_callbacks.clear()]. *)
Definition deregister_all_callbacks (self : Callbacks) : Callbacks :=
  {| m_callbacks := [];
     m_lastAssignedCallback_ID := m_lastAssignedCallback_ID self |}.

(** A range-based [for] whose body never leaves the loop. *)
Fixpoint for_each (range : list Callback) (body : Callback -> Exec Machine unit)
  : Exec Machine unit :=
  match range with
  | [] => ret tt
  | cb :: range' => call _ := body cb in for_each range' body
  end.

(** *** [CallbacksReturningAContainer] *)

(** The loop of [invokeCallbacksUntilOneOfThemReturnsANonEmptyContainer],
    entered with the local [callbackReturn] holding [callbackReturn]: each
    round assigns the callback's result to the local, and returns it at
    once when it is not empty; when the range is exhausted the local is
    returned as it stands. *)
Fixpoint until_non_empty_loop `{Container.t R} (range : list Callback)
    (arguments : Args) (callbackReturn : R) : Exec Machine R :=
  match range with
  | [] => ret callbackReturn
  | callback :: range' =>
      call callbackReturn' := Callback_call callback arguments in
      if negb (Container.empty callbackReturn') then ret callbackReturn'
      else until_non_empty_loop range' arguments callbackReturn'
  end.

(** [CallbackReturnType callbackReturn;] then the loop over
    [this->m_callbacks]. *)
Definition invokeCallbacksUntilOneOfThemReturnsANonEmptyContainer
    `{Container.t R} (self : Callbacks) (arguments : Args) : Exec Machine R :=
  until_non_empty_loop (m_callbacks self) arguments Container.ctor.

End CallbacksLIB.

Arguments Callback : clear implicits.
Arguments Callbacks : clear implicits.
Arguments Machine : clear implicits.
Arguments CallbackFunctionType : clear implicits.

(** *** The invoking members of [Callbacks], at [Callbacks<void, Args...>]

    [invokeCallbacks] and [operator()] are declared to return
    [CallbackReturnType] and their bodies contain no [return] statement.
    When [CallbackReturnType] is [void] the member returns normally after
    its loop.  For every other return type, flowing off the end of the
    function is undefined behaviour: the members have no meaning there, and
    they are modelled at the return type [void] (the type [unit]) only. *)

Section CallbacksReturningVoid.

Context {W Args : Type}.

(** [invokeCallbacks(arguments...) const], for [CallbackReturnType = void]:
    the loop body calls the callback, as an expression statement. *)
Definition invokeCallbacks (self : Callbacks W Args unit) (arguments : Args)
  : Exec (Machine W Args unit) unit :=
  for_each (m_callbacks self)
    (fun callback => call _ := Callback_call callback arguments in ret tt).


End CallbacksReturningVoid.

(** *** [CallbacksReturningABoolean]: [Callbacks<bool, Args...>] *)

Section CallbacksReturningABoolean.

Context {W Args : Type}.

(** The loop of [invokeCallbacksUntilOneOfThemReturnsANonZeroValue]:
    [if(callback(arguments...)) return true;] and [return false;] after the
    loop. *)
Fixpoint until_non_zero_loop (range : list (Callback W Args bool))
    (arguments : Args) : Exec (Machine W Args bool) bool :=
  match range with
  | [] => ret false
  | callback :: range' =>
      call v := Callback_call callback arguments in
      if v then ret true else until_non_zero_loop range' arguments
  end.

Definition invokeCallbacksUntilOneOfThemReturnsANonZeroValue
    (self : Callbacks W Args bool) (arguments : Args)
  : Exec (Machine W Args bool) bool :=
  until_non_zero_loop (m_callbacks self) arguments.

End CallbacksReturningABoolean.

(** ** Histories of a registry *)

Section History.

Context {W Args R : Type}.

(** The ids of the entries currently registered, in vector order. *)
Definition ids (self : Callbacks W Args R) : list Z :=
  m_id <$> m_callbacks self.

(** [Reach stored issued self]: a registry constructed over a counter holding
    [stored] is in state [self] after some sequence of calls to its mutating
    members, in which the calls to [register_callback] returned the ids
    [issued], oldest first.  The invoking members are [const] and the
    callables do not reach the registry: they leave [self] as it is. *)
Inductive Reach (stored : Z) : list Z -> Callbacks W Args R -> Prop :=
| Reach_ctor :
    Reach stored [] (Callbacks_ctor stored)
| Reach_register issued self callback :
    Reach stored issued self ->
    Reach stored (issued ++ [(register_callback self callback).1])
          (register_callback self callback).2
| Reach_deregister issued self callbackID :
    Reach stored issued self ->
    Reach stored issued (deregister_callback self callbackID).2
| Reach_deregister_all issued self :
    Reach stored issued self ->
    Reach stored issued (deregister_all_callbacks self).

(** The ids that [n] successive registrations return on a registry whose
    counter started at [stored]: the counter values [stored + 1], ...,
    [stored + n], each wrapped to an [int]. *)
Definition issued_ids (stored : Z) (n : Z) : list Z :=
  (fun k => Int.wrap_int (stored + k)) <$> seqZ 1 n.

(** Registering the callables of [callbacks] one after the other. *)
Definition register_all (self : Callbacks W Args R)
    (callbacks : list (CallbackFunctionType W Args R)) : Callbacks W Args R :=
  foldl (fun s callback => (register_callback s callback).2) self callbacks.

(** Register a callable and deregister it again at once, by the id that the
    registration returned. *)
Definition register_then_deregister (callback : CallbackFunctionType W Args R)
    (self : Callbacks W Args R) : Callbacks W Args R :=
  let '(id, self') := register_callback self callback in
  (deregister_callback self' id).2.

(** Calling every callback of [range] in order, keeping all the results. *)
Fixpoint call_all (range : list (Callback W Args R)) (arguments : Args)
  : Exec (Machine W Args R) (list R) :=
  match range with
  | [] => ret []
  | cb :: range' =>
      call v := Callback_call cb arguments in
      call vs := call_all range' arguments in
      ret (v :: vs)
  end.

(** The log entries of calling every callback of [range] with [arguments]. *)
Definition calls_of (range : list (Callback W Args R)) (arguments : Args)
  : list (Callback W Args R * Args) :=
  (fun cb => (cb, arguments)) <$> range.

(** [range] without its first entry whose id is [callbackID], if any. *)
Fixpoint erase_first (range : list (Callback W Args R)) (callbackID : Z)
  : list (Callback W Args R) :=
  match range with
  | [] => []
  | cb :: range' =>
      if m_id cb =? callbackID then range'
      else cb :: erase_first range' callbackID
  end.

(** Deregistering the ids of [callbackIDs] one after the other. *)
Definition deregister_each (self : Callbacks W Args R) (callbackIDs : list Z)
  : Callbacks W Args R :=
  foldl (fun s callbackID => (deregister_callback s callbackID).2)
        self callbackIDs.

End History.

(** Every result in [vs] is empty. *)
Definition all_empty {R : Type} `{Container.t R} (vs : list R) : Prop :=
  Forall (fun v => Container.empty v = true) vs.

(** Every result in [vs] is false. *)
Definition all_false (vs : list bool) : Prop :=
  Forall (fun v => v = false) vs.

(** ** Concrete callables and return types

    The instances at which the statements below are exercised. *)

Module Fixtures.

(** A callable that takes no argument, returns nothing and touches nothing. *)
Definition noop : CallbackFunctionType unit unit unit :=
  fun _ w => (tt, w).

(** A callable that appends its own tag to an externally observed log. *)
Definition logger (tag : nat) : CallbackFunctionType (list nat) unit unit :=
  fun _ log => (tt, log ++ [tag]).

(** A callable that returns [v] and bumps an externally observed counter of
    executions. *)
Definition counting {R : Type} (v : R) : CallbackFunctionType nat unit R :=
  fun _ executions => (v, S executions).

(** A return type with a member [empty()] that looks at one field only: a
    reply carrying a payload and a status code, empty when the payload is. *)
Record Reply : Type := mkReply {
  payload : list Z;
  status : Z
}.

#[global] Instance Reply_container : Container.t Reply := {|
  Container.ctor := {| payload := []; status := 0 |};
  Container.empty := fun r => match payload r with [] => true | _ :: _ => false end
|}.

(** A registry over a zero counter in which one callable was registered
    (and stays), after which [n] registrations were each undone at once. *)
Definition long_lived (n : N) : Callbacks unit unit unit :=
  N.iter n (register_then_deregister noop)
    (register_callback (Callbacks_ctor 0) noop).2.

(** A registry over a zero counter in which [n] registrations were each
    undone at once. *)
Definition worn (n : N) : Callbacks unit unit unit :=
  N.iter n (register_then_deregister noop) (Callbacks_ctor 0).

(** A registry with one handler, which answers with an empty payload and
    status 7. *)
Definition declining : Callbacks nat unit Reply :=
  register_all (Callbacks_ctor 0) [counting {| payload := []; status := 7 |}].

(** Three handlers returning an empty container, the container holding 88
    and the container holding 89, registered in that order. *)
Definition three_handlers : Callbacks nat unit (list Z) :=
  register_all (Callbacks_ctor 0) [counting []; counting [88]; counting [89]].

(** Four handlers returning false, false, true, false, registered in that
    order. *)
Definition four_answers : Callbacks nat unit bool :=
  register_all (Callbacks_ctor 0)
    [counting false; counting false; counting true; counting false].

(** Three loggers with tags 3, 1 and 2, registered in that order. *)
Definition three_loggers : Callbacks (list nat) unit unit :=
  register_all (Callbacks_ctor 0) [logger 3; logger 1; logger 2].

(** A machine in which nothing has run yet. *)
Definition fresh {W Args R : Type} (w : W) : Machine W Args R :=
  {| world := w; call_log := [] |}.

End Fixtures.

(** ** Facts about [int] *)

Module IntFacts.
Import Int.

Lemma wrap_int_in_range x : in_range (wrap_int x).
Proof.
  unfold in_range, wrap_int, MIN, MAX, MODULUS.
  pose proof (Z.mod_pos_bound (x - -2147483648) 4294967296 eq_refl). lia.
Qed.

Lemma wrap_int_id x : in_range x -> wrap_int x = x.
Proof.
  unfold in_range, wrap_int, MIN, MAX, MODULUS. intros Hx.
  rewrite Z.mod_small; lia.
Qed.

Lemma wrap_int_add_l a b : wrap_int (wrap_int a + b) = wrap_int (a + b).
Proof.
  unfold wrap_int, MIN, MODULUS.
  f_equal.
  replace ((a - -2147483648) mod 4294967296 + -2147483648 + b - -2147483648)
    with ((a - -2147483648) mod 4294967296 + b) by lia.
  replace (a + b - -2147483648) with ((a - -2147483648) + b) by lia.
  apply Zplus_mod_idemp_l.
Qed.

(** Two integers less than 2^32 apart wrap to different values. *)
Lemma wrap_int_inj_window a b :
  wrap_int a = wrap_int b -> 0 <= b - a < MODULUS -> a = b.
Proof.
  unfold wrap_int, MIN, MODULUS. intros Heq Hwin.
  assert (Hm : (a - -2147483648) mod 4294967296
               = (b - -2147483648) mod 4294967296) by lia.
  pose proof (Z.div_mod (a - -2147483648) 4294967296 ltac:(lia)) as Ha.
  pose proof (Z.div_mod (b - -2147483648) 4294967296 ltac:(lia)) as Hb.
  assert (Hq : b - a = 4294967296 *
    ((b - -2147483648) / 4294967296 - (a - -2147483648) / 4294967296)) by lia.
  nia.
Qed.

End IntFacts.

(** ** Facts about the registry operations *)

Section RegistryFacts.

Context {W Args R : Type}.
Implicit Types (self : Callbacks W Args R) (cb : Callback W Args R).
Implicit Types (callback : CallbackFunctionType W Args R).

Lemma register_callback_eq self callback :
  register_callback self callback =
  (Int.wrap_int (m_lastAssignedCallback_ID self + 1),
   {| m_callbacks :=
        m_callbacks self ++
        [{| m_id := Int.wrap_int (m_lastAssignedCallback_ID self + 1);
            m_callback := callback |}];
      m_lastAssignedCallback_ID :=
        Int.wrap_int (m_lastAssignedCallback_ID self + 1) |}).
Proof. reflexivity. Qed.

Lemma ids_register self callback :
  ids (register_callback self callback).2 =
  ids self ++ [(register_callback self callback).1].
Proof. unfold ids. rewrite register_callback_eq. simpl. by rewrite fmap_snoc. Qed.

(** What the scan of [deregister_callback] finds. *)
Lemma deregister_scan_Some (rest : list (Callback W Args R)) i callbackID j :
  deregister_scan rest i callbackID = Some j ->
  exists before cb after,
    rest = before ++ cb :: after /\
    m_id cb = callbackID /\
    Forall (fun c => m_id c <> callbackID) before /\
    j = (i + length before)%nat.
Proof.
  revert i. induction rest as [|c rest IH]; intros i Hscan; simpl in Hscan.
  - discriminate.
  - destruct (Z.eqb_spec (m_id c) callbackID) as [Heq|Hne].
    + injection Hscan as <-. exists [], c, rest. simpl.
      repeat split; auto with lia.
    + destruct (IH _ Hscan) as (before & cb & after & -> & Hid & Hall & ->).
      exists (c :: before), cb, after. simpl. repeat split; auto with lia.
Qed.

Lemma deregister_scan_None (rest : list (Callback W Args R)) i callbackID :
  deregister_scan rest i callbackID = None <-> callbackID ∉ m_id <$> rest.
Proof.
  revert i. induction rest as [|c rest IH]; intros i; simpl.
  - split; [intros _; apply not_elem_of_nil | done].
  - rewrite not_elem_of_cons.
    destruct (Z.eqb_spec (m_id c) callbackID) as [Heq|Hne].
    + split; [done | intros [Hc _]; congruence].
    + rewrite IH. split; [intros H; split; [congruence | done] | tauto].
Qed.

(** The two outcomes of [deregister_callback]. *)
Lemma deregister_callback_found self callbackID :
  callbackID ∈ ids self ->
  exists before cb after,
    m_callbacks self = before ++ cb :: after /\
    m_id cb = callbackID /\
    Forall (fun c => m_id c <> callbackID) before /\
    deregister_callback self callbackID =
      (true, {| m_callbacks := before ++ after;
                m_lastAssignedCallback_ID := m_lastAssignedCallback_ID self |}).
Proof.
  intros Hin. unfold deregister_callback.
  destruct (deregister_scan (m_callbacks self) 0 callbackID) as [j|] eqn:Hscan.
  - destruct (deregister_scan_Some _ _ _ _ Hscan)
      as (before & cb & after & Hsplit & Hid & Hall & ->).
    exists before, cb, after. repeat split; auto.
    rewrite Hsplit. simpl. by rewrite delete_middle.
  - apply deregister_scan_None in Hscan. done.
Qed.

Lemma deregister_callback_not_found self callbackID :
  callbackID ∉ ids self ->
  deregister_callback self callbackID = (false, self).
Proof.
  intros Hnin. unfold deregister_callback.
  apply (deregister_scan_None _ 0%nat) in Hnin. by rewrite Hnin.
Qed.

Lemma deregister_callback_result self callbackID :
  (deregister_callback self callbackID).1 = bool_decide (callbackID ∈ ids self).
Proof.
  destruct (decide (callbackID ∈ ids self)) as [Hin|Hnin].
  - destruct (deregister_callback_found _ _ Hin) as (?&?&?&_&_&_&->).
    by rewrite bool_decide_eq_true_2.
  - rewrite deregister_callback_not_found by done.
    by rewrite bool_decide_eq_false_2.
Qed.

Lemma deregister_callback_counter self callbackID :
  m_lastAssignedCallback_ID (deregister_callback self callbackID).2 =
  m_lastAssignedCallback_ID self.
Proof. unfold deregister_callback. by destruct deregister_scan. Qed.

Lemma deregister_callback_sublist self callbackID :
  m_callbacks (deregister_callback self callbackID).2
    `sublist_of` m_callbacks self.
Proof.
  unfold deregister_callback. destruct deregister_scan; simpl.
  - apply sublist_delete.
  - done.
Qed.

End RegistryFacts.

(** ** Facts about histories *)

Section HistoryFacts.

Context {W Args R : Type}.
Implicit Types (self : Callbacks W Args R) (cb : Callback W Args R).
Implicit Types (callback : CallbackFunctionType W Args R).

Lemma issued_ids_snoc stored (n : nat) :
  issued_ids stored (Z.of_nat (S n)) =
  issued_ids stored (Z.of_nat n) ++ [Int.wrap_int (stored + (1 + Z.of_nat n))].
Proof. unfold issued_ids. by rewrite seqZ_S, fmap_snoc. Qed.

Lemma issued_ids_NoDup stored n :
  n <= Int.MODULUS -> NoDup (issued_ids stored n).
Proof.
  intros Hn. unfold issued_ids.
  apply NoDup_fmap_2_strong; [|apply NoDup_seqZ].
  intros x y Hx%elem_of_seqZ Hy%elem_of_seqZ Heq.
  destruct (Z.le_ge_cases x y).
  - apply IntFacts.wrap_int_inj_window in Heq; lia.
  - symmetry in Heq. apply IntFacts.wrap_int_inj_window in Heq; lia.
Qed.

(** The counter counts the registrations, modulo 2^32; the ids issued are
    the successive counter values; the ids present are among them, in the
    order of issue. *)
Lemma Reach_invariant stored issued self :
  Reach stored issued self ->
  Int.wrap_int (m_lastAssignedCallback_ID self)
    = Int.wrap_int (stored + Z.of_nat (length issued)) /\
  issued = issued_ids stored (Z.of_nat (length issued)) /\
  ids self `sublist_of` issued.
Proof.
  induction 1 as [|issued self callback _ (Hctr & Hiss & Hsub)
                  |issued self callbackID _ (Hctr & Hiss & Hsub)
                  |issued self _ (Hctr & Hiss & Hsub)].
  - simpl. rewrite Z.add_0_r. repeat split. apply sublist_nil_l.
  - assert (Hid : (register_callback self callback).1
                  = Int.wrap_int (stored + (1 + Z.of_nat (length issued)))).
    { rewrite register_callback_eq. simpl.
      rewrite <- IntFacts.wrap_int_add_l, Hctr, IntFacts.wrap_int_add_l.
      f_equal. lia. }
    rewrite ids_register, Hid. rewrite length_app. simpl.
    replace (length issued + 1)%nat with (S (length issued)) by lia.
    split; [|split].
    + rewrite IntFacts.wrap_int_id by apply IntFacts.wrap_int_in_range.
      rewrite <- IntFacts.wrap_int_add_l, Hctr, IntFacts.wrap_int_add_l.
      f_equal. lia.
    + rewrite issued_ids_snoc. by rewrite <- Hiss.
    + by apply sublist_app.
  - rewrite deregister_callback_counter. repeat split; auto.
    etrans; [|exact Hsub]. unfold ids.
    apply fmap_sublist, deregister_callback_sublist.
  - simpl. repeat split; auto. apply sublist_nil_l.
Qed.

Lemma Reach_issued_NoDup stored issued self :
  Reach stored issued self ->
  Z.of_nat (length issued) <= Int.MODULUS ->
  NoDup issued.
Proof.
  intros (_ & Hiss & _)%Reach_invariant Hlen.
  rewrite Hiss. by apply issued_ids_NoDup.
Qed.

Lemma Reach_ids_NoDup stored issued self :
  Reach stored issued self ->
  Z.of_nat (length issued) <= Int.MODULUS ->
  NoDup (ids self).
Proof.
  intros Hreach Hlen.
  destruct (Reach_invariant _ _ _ Hreach) as (_ & _ & Hsub).
  pose proof (Reach_issued_NoDup _ _ _ Hreach Hlen) as Hnodup.
  by apply (sublist_NoDup _ _ Hnodup).
Qed.

(** The id that the next registration returns. *)
Lemma Reach_next_id stored issued self callback :
  Reach stored issued self ->
  (register_callback self callback).1
    = Int.wrap_int (stored + Z.of_nat (length issued) + 1).
Proof.
  intros (Hctr & _ & _)%Reach_invariant.
  rewrite register_callback_eq. simpl.
  by rewrite <- IntFacts.wrap_int_add_l, Hctr, IntFacts.wrap_int_add_l.
Qed.

(** [register_then_deregister] is one registration followed by one
    deregistration. *)
Lemma Reach_register_then_deregister stored issued self callback :
  Reach stored issued self ->
  exists id, Reach stored (issued ++ [id]) (register_then_deregister callback self).
Proof.
  intros Hreach. unfold register_then_deregister.
  destruct (register_callback self callback) as [id self'] eqn:Hreg.
  exists id.
  pose proof (Reach_register _ _ _ callback Hreach) as H1.
  rewrite Hreg in H1. simpl in H1. by apply Reach_deregister.
Qed.

Lemma Reach_iter stored callback (n : N) : forall issued self,
  Reach stored issued self ->
  exists issued',
    Reach stored issued' (N.iter n (register_then_deregister callback) self) /\
    Z.of_nat (length issued') = Z.of_nat (length issued) + Z.of_N n.
Proof.
  induction n as [|n IH] using N.peano_ind; intros issued self Hreach.
  - exists issued. simpl. split; [done | lia].
  - rewrite N.iter_succ.
    destruct (IH _ _ Hreach) as (issued' & Hreach' & Hlen).
    destruct (Reach_register_then_deregister _ _ _ callback Hreach') as [id Hid].
    exists (issued' ++ [id]). split; [done|].
    rewrite length_app. simpl. lia.
Qed.

(** On a registry with no entry, registering and deregistering at once only
    moves the counter. *)
Lemma register_then_deregister_empty callback self :
  m_callbacks self = [] ->
  register_then_deregister callback self =
  {| m_callbacks := [];
     m_lastAssignedCallback_ID :=
       Int.wrap_int (m_lastAssignedCallback_ID self + 1) |}.
Proof.
  intros Hnil. unfold register_then_deregister.
  rewrite register_callback_eq, Hnil. unfold deregister_callback. simpl.
  by rewrite Z.eqb_refl.
Qed.

(** The same on a registry that holds one entry whose callable is the one
    being registered. *)
Lemma register_then_deregister_single callback self id :
  m_callbacks self = [{| m_id := id; m_callback := callback |}] ->
  register_then_deregister callback self =
  {| m_callbacks := [{| m_id := id; m_callback := callback |}];
     m_lastAssignedCallback_ID :=
       Int.wrap_int (m_lastAssignedCallback_ID self + 1) |}.
Proof.
  intros Hone. unfold register_then_deregister.
  rewrite register_callback_eq, Hone. unfold deregister_callback. simpl.
  destruct (Z.eqb_spec id (Int.wrap_int (m_lastAssignedCallback_ID self + 1)))
    as [->|Hne]; simpl.
  - done.
  - by rewrite Z.eqb_refl.
Qed.

Lemma register_then_deregister_counter callback self :
  m_callbacks self = [] \/
  (exists id, m_callbacks self = [{| m_id := id; m_callback := callback |}]) ->
  register_then_deregister callback self =
  {| m_callbacks := m_callbacks self;
     m_lastAssignedCallback_ID :=
       Int.wrap_int (m_lastAssignedCallback_ID self + 1) |}.
Proof.
  intros [Hnil|[id Hone]].
  - rewrite register_then_deregister_empty by exact Hnil. by rewrite Hnil.
  - rewrite (register_then_deregister_single _ _ id) by exact Hone.
    by rewrite Hone.
Qed.

Lemma iter_register_then_deregister callback (n : N) : forall self,
  m_callbacks self = [] \/
  (exists id, m_callbacks self = [{| m_id := id; m_callback := callback |}]) ->
  N.iter n (register_then_deregister callback) self =
  {| m_callbacks := m_callbacks self;
     m_lastAssignedCallback_ID :=
       if (n =? 0)%N then m_lastAssignedCallback_ID self
       else Int.wrap_int (m_lastAssignedCallback_ID self + Z.of_N n) |}.
Proof.
  induction n as [|n IH] using N.peano_ind; intros self Hshape.
  - simpl. by destruct self.
  - rewrite N.iter_succ, IH by exact Hshape.
    replace (N.succ n =? 0)%N with false by (symmetry; apply N.eqb_neq; lia).
    rewrite register_then_deregister_counter by exact Hshape.
    cbn [m_callbacks m_lastAssignedCallback_ID].
    apply (f_equal (mkCallbacks (m_callbacks self))).
    destruct (N.eqb_spec n 0) as [Hn|Hn].
    + apply (f_equal Int.wrap_int). lia.
    + rewrite IntFacts.wrap_int_add_l. apply (f_equal Int.wrap_int). lia.
Qed.

End HistoryFacts.

(** ** Registration and identifiers *)

Section Registration.

Context {W Args R : Type}.
Implicit Types (self : Callbacks W Args R) (cb : Callback W Args R).
Implicit Types (callback : CallbackFunctionType W Args R).

(** C1, as amended.  For every registry, [register_callback] appends one
    entry, holding the callable and the returned id, at the end of the
    vector, and the id it returns and stores is the counter incremented by
    one and wrapped to a 32-bit [int].  On a registry whose counter was zero
    when it was constructed: as long as fewer than 2^32 - 1 registrations
    came before, the returned id is not 0; the first id issued is 1; and the
    k-th id issued is k for every k up to [INT_MAX]. *)
Theorem register_callback_appends_and_issues_next_id self callback :
  let result := register_callback self callback in
  m_callbacks result.2 =
    m_callbacks self ++ [{| m_id := result.1; m_callback := callback |}] /\
  result.1 = Int.wrap_int (m_lastAssignedCallback_ID self + 1) /\
  m_lastAssignedCallback_ID result.2 = result.1 /\
  forall issued,
    Reach 0 issued self ->
    Z.of_nat (length issued) < Int.MODULUS - 1 ->
    result.1 <> 0 /\
    (issued = [] -> result.1 = 1) /\
    (Z.of_nat (length issued) < Int.MAX ->
     result.1 = Z.of_nat (length issued) + 1).
Proof.
  cbv zeta. split; [reflexivity|]. split; [reflexivity|]. split; [reflexivity|].
  intros issued Hreach Hlen.
  rewrite (Reach_next_id _ _ _ callback Hreach). rewrite Z.add_0_l.
  split; [|split].
  - intros Hzero.
    assert (H0 : Int.wrap_int 0 = 0) by reflexivity.
    rewrite <- H0 in Hzero. symmetry in Hzero.
    apply IntFacts.wrap_int_inj_window in Hzero; unfold Int.MODULUS in *; lia.
  - intros ->. reflexivity.
  - intros Hsmall. apply IntFacts.wrap_int_id.
    unfold Int.in_range, Int.MIN, Int.MAX in *. lia.
Qed.

(** C2, as amended.  Along every sequence of register / deregister /
    deregister-all calls (the invoking members are [const] and leave the
    registry as it is) on one registry, whatever its counter held at
    construction, and as long as at most 2^32 registrations were made: the
    entries currently registered have pairwise distinct ids, no id was
    issued twice, every id present was issued, and, while fewer than 2^32
    registrations were made, the id that the next registration returns was
    never issued before, removed or not. *)
Theorem ids_distinct_and_never_reissued stored issued self :
  Reach stored issued self ->
  Z.of_nat (length issued) <= Int.MODULUS ->
  NoDup (ids self) /\
  NoDup issued /\
  (forall id, id ∈ ids self -> id ∈ issued) /\
  (forall callback,
     Z.of_nat (length issued) < Int.MODULUS ->
     (register_callback self callback).1 ∉ issued).
Proof.
  intros Hreach Hlen.
  pose proof (Reach_issued_NoDup _ _ _ Hreach Hlen) as Hnodup.
  destruct (Reach_invariant _ _ _ Hreach) as (_ & _ & Hsub).
  split; [by apply (sublist_NoDup _ _ Hnodup)|]. split; [done|]. split.
  - intros id Hin. by eapply elem_of_sublist.
  - intros callback Hlt.
    pose proof (Reach_register _ _ _ callback Hreach) as Hnext.
    apply Reach_issued_NoDup in Hnext.
    + apply list.NoDup_app in Hnext as (_ & Hfresh & _).
      intros Hin. apply (Hfresh _ Hin). by apply list_elem_of_singleton.
    + rewrite length_app. simpl. lia.
Qed.

(** C6, as amended.  For every registry, [deregister_callback] returns true
    exactly when some currently registered entry has the id, and false
    otherwise; the function is total and its answer is a boolean.  After
    [register_callback] returned an id, deregistering that id returns true.
    On a registry on which fewer than 2^32 registrations were made before,
    deregistering the same id a second time returns false.  Deregistering
    an id that no registration on this registry ever returned returns
    false. *)
Theorem deregister_callback_reports_presence self :
  (forall callbackID,
     (deregister_callback self callbackID).1
       = bool_decide (callbackID ∈ ids self)) /\
  (forall callback,
     let registered := register_callback self callback in
     (deregister_callback registered.2 registered.1).1 = true) /\
  (forall stored issued,
     Reach stored issued self ->
     (forall callback,
        Z.of_nat (length issued) < Int.MODULUS ->
        let registered := register_callback self callback in
        let first := deregister_callback registered.2 registered.1 in
        first.1 = true /\
        (deregister_callback first.2 registered.1).1 = false) /\
     (forall callbackID,
        callbackID ∉ issued ->
        (deregister_callback self callbackID).1 = false)).
Proof.
  assert (Hfirst : forall callback,
    (deregister_callback (register_callback self callback).2
       (register_callback self callback).1).1 = true).
  { intros callback. rewrite deregister_callback_result.
    apply bool_decide_eq_true_2. rewrite ids_register.
    apply elem_of_app. right. by apply list_elem_of_singleton. }
  split; [apply deregister_callback_result|]. split; [exact Hfirst|].
  intros stored issued Hreach. split.
  - intros callback Hlt. cbv zeta. split; [apply Hfirst|].
    set (id := (register_callback self callback).1).
    pose proof (Reach_register _ _ _ callback Hreach) as Hnext. fold id in Hnext.
    assert (Hnodup : NoDup (ids (register_callback self callback).2)).
    { eapply Reach_ids_NoDup; [exact Hnext|].
      rewrite length_app. simpl. lia. }
    rewrite deregister_callback_result. apply bool_decide_eq_false_2.
    assert (Hin : id ∈ ids (register_callback self callback).2).
    { rewrite ids_register. apply elem_of_app. right.
      by apply list_elem_of_singleton. }
    destruct (deregister_callback_found _ _ Hin)
      as (before & cb & after & Hsplit & Hid & Hall & ->).
    unfold ids in *. simpl. rewrite Hsplit in Hnodup.
    rewrite fmap_app, fmap_cons, Hid in Hnodup.
    apply list.NoDup_app in Hnodup as (_ & Hba & Hca).
    apply list.NoDup_cons in Hca as (Hafter & _).
    rewrite fmap_app. intros [Hb|Ha]%elem_of_app.
    + apply (Hba _ Hb). apply elem_of_cons. by left.
    + done.
  - intros callbackID Hnew. rewrite deregister_callback_result.
    apply bool_decide_eq_false_2. intros Hin.
    destruct (Reach_invariant _ _ _ Hreach) as (_ & _ & Hsub).
    apply Hnew. by eapply elem_of_sublist.
Qed.

(** C7.  When [deregister_callback] finds an entry with the id, the vector
    splits around the first such entry, that entry alone is removed, the
    entries before and after it are kept as they are and in their order,
    and the counter keeps its value; when it finds none, the registry is
    left exactly as it was. *)
Theorem deregister_callback_removes_exactly_one self callbackID :
  match deregister_callback self callbackID with
  | (true, self') =>
      exists before cb after,
        m_callbacks self = before ++ cb :: after /\
        m_id cb = callbackID /\
        Forall (fun c => m_id c <> callbackID) before /\
        m_callbacks self' = before ++ after /\
        m_lastAssignedCallback_ID self' = m_lastAssignedCallback_ID self
  | (false, self') =>
      (callbackID ∉ ids self) /\ self' = self
  end.
Proof.
  destruct (decide (callbackID ∈ ids self)) as [Hin|Hnin].
  - destruct (deregister_callback_found _ _ Hin)
      as (before & cb & after & Hsplit & Hid & Hall & ->).
    exists before, cb, after. by repeat split.
  - by rewrite deregister_callback_not_found.
Qed.

End Registration.

(** ** The counter after 2^32 registrations *)

Module Wraparound.
Import Fixtures.

Lemma worn_state n :
  worn n =
  {| m_callbacks := [];
     m_lastAssignedCallback_ID :=
       if (n =? 0)%N then 0 else Int.wrap_int (0 + Z.of_N n) |}.
Proof.
  unfold worn. rewrite iter_register_then_deregister; [reflexivity|].
  left. reflexivity.
Qed.

Lemma long_lived_state n :
  long_lived n =
  {| m_callbacks := [{| m_id := 1; m_callback := noop |}];
     m_lastAssignedCallback_ID :=
       if (n =? 0)%N then 1 else Int.wrap_int (1 + Z.of_N n) |}.
Proof.
  unfold long_lived. rewrite iter_register_then_deregister; [reflexivity|].
  right. exists 1. reflexivity.
Qed.

Lemma worn_Reach n :
  exists issued, Reach 0 issued (worn n) /\ Z.of_nat (length issued) = Z.of_N n.
Proof.
  destruct (Reach_iter 0 noop n [] _ (Reach_ctor 0))
    as (issued & Hreach & Hlen).
  exists issued. split; [exact Hreach|]. rewrite Hlen. reflexivity.
Qed.

Lemma long_lived_Reach n :
  exists issued,
    Reach 0 issued (long_lived n) /\ Z.of_nat (length issued) = 1 + Z.of_N n.
Proof.
  destruct (Reach_iter 0 noop n _ _ (Reach_register 0 _ _ noop (Reach_ctor 0)))
    as (issued & Hreach & Hlen).
  exists issued. split; [exact Hreach|]. rewrite Hlen. reflexivity.
Qed.

(** C1, as stated, fails: on a registry constructed over a zero counter,
    after 2^32 - 1 registrations (each undone at once, so the vector stays
    empty), the next call to [register_callback] returns 0. *)
Lemma register_callback_returns_zero_after_wrap :
  (exists issued,
     Reach 0 issued (worn 4294967295) /\
     Z.of_nat (length issued) = 4294967295) /\
  (register_callback (worn 4294967295) noop).1 = 0.
Proof.
  split.
  - apply (worn_Reach 4294967295).
  - rewrite worn_state. vm_compute. reflexivity.
Qed.

(** C2, as stated, fails: a callable registered first receives id 1 and
    stays registered; after 2^32 - 1 further registrations (each undone at
    once) the next registration is given id 1 again, and the registry holds
    two entries with the same id. *)
Lemma ids_repeat_after_wrap :
  (exists issued,
     Reach 0 issued (register_callback (long_lived 4294967295) noop).2 /\
     Z.of_nat (length issued) = 4294967297) /\
  ids (register_callback (long_lived 4294967295) noop).2 = [1; 1] /\
  ~ NoDup (ids (register_callback (long_lived 4294967295) noop).2).
Proof.
  split; [|split].
  - destruct (long_lived_Reach 4294967295) as (issued & Hreach & Hlen).
    eexists. split; [apply Reach_register; exact Hreach|].
    rewrite length_app, Nat2Z.inj_add, Hlen. reflexivity.
  - rewrite long_lived_state. vm_compute. reflexivity.
  - rewrite long_lived_state.
    intros Hnodup. vm_compute in Hnodup.
    apply list.NoDup_cons in Hnodup as [Hnin _].
    apply Hnin. by left.
Qed.

(** C6, as stated, fails: in the same registry, the registration that is
    given id 1 again is followed by two deregistrations of id 1, and both
    return true. *)
Lemma second_deregister_succeeds_after_wrap :
  (exists issued, Reach 0 issued (long_lived 4294967295)) /\
  (register_callback (long_lived 4294967295) noop).1 = 1 /\
  (deregister_callback (register_callback (long_lived 4294967295) noop).2 1).1
    = true /\
  (deregister_callback
     (deregister_callback
        (register_callback (long_lived 4294967295) noop).2 1).2 1).1
    = true.
Proof.
  split.
  - destruct (long_lived_Reach 4294967295) as (issued & Hreach & _). eauto.
  - rewrite long_lived_state. vm_compute. auto.
Qed.

(** The first registration on a freshly constructed registry over a zero
    counter returns 1. *)
Lemma register_callback_appends_and_issues_next_id_witness :
  Reach 0 [] (Callbacks_ctor 0 : Callbacks unit unit unit) /\
  Z.of_nat (length (@nil Z)) < Int.MODULUS - 1 /\
  (register_callback (Callbacks_ctor 0) noop).1 = 1.
Proof.
  split; [apply Reach_ctor|]. split; [reflexivity|].
  destruct (register_callback_appends_and_issues_next_id (Callbacks_ctor 0) noop)
    as (_ & _ & _ & Hhist).
  destruct (Hhist [] (Reach_ctor 0) eq_refl) as (_ & Hfirst & _).
  exact (Hfirst eq_refl).
Defined.

(** Two registrations, then the first one undone: ids 1 and 2 were issued,
    id 2 is present, and the next registration does not return 1 or 2. *)
Lemma ids_distinct_and_never_reissued_witness :
  Reach 0 [1; 2]
    (deregister_callback (register_all (Callbacks_ctor 0) [noop; noop]) 1).2 /\
  Z.of_nat (length [1; 2]) <= Int.MODULUS /\
  NoDup (ids (deregister_callback
                (register_all (Callbacks_ctor 0) [noop; noop]) 1).2) /\
  (register_callback
     (deregister_callback (register_all (Callbacks_ctor 0) [noop; noop]) 1).2
     noop).1 ∉ [1; 2].
Proof.
  assert (Hreach : Reach 0 [1; 2]
    (deregister_callback (register_all (Callbacks_ctor 0) [noop; noop]) 1).2).
  { exact (Reach_deregister 0 _ _ 1
             (Reach_register 0 _ _ noop
                (Reach_register 0 _ _ noop (Reach_ctor 0)))). }
  assert (Hlen : Z.of_nat (length [1; 2]) <= Int.MODULUS) by (vm_compute; discriminate).
  split; [exact Hreach|]. split; [exact Hlen|].
  destruct (ids_distinct_and_never_reissued 0 [1; 2] _ Hreach Hlen)
    as (Hpresent & _ & _ & Hnext).
  split; [exact Hpresent|]. apply Hnext. reflexivity.
Defined.

(** On a fresh registry: register, deregister the id (true), deregister it
    again (false); and an id that was never issued is not found. *)
Lemma deregister_callback_reports_presence_witness :
  Reach 0 [] (Callbacks_ctor 0 : Callbacks unit unit unit) /\
  Z.of_nat (length (@nil Z)) < Int.MODULUS /\
  (deregister_callback (register_callback (Callbacks_ctor 0) noop).2 1).1 = true /\
  (deregister_callback
     (deregister_callback (register_callback (Callbacks_ctor 0) noop).2 1).2 1).1
    = false /\
  (deregister_callback (Callbacks_ctor 0 : Callbacks unit unit unit) 7).1 = false.
Proof.
  split; [apply Reach_ctor|]. split; [reflexivity|].
  destruct (deregister_callback_reports_presence
              (Callbacks_ctor 0 : Callbacks unit unit unit))
    as (_ & _ & Hhist).
  destruct (Hhist 0 [] (Reach_ctor 0)) as (Htwice & Hnever).
  destruct (Htwice noop eq_refl) as (Hfirst & Hsecond).
  split; [exact Hfirst|]. split; [exact Hsecond|].
  apply Hnever. apply not_elem_of_nil.
Defined.

End Wraparound.

(** ** Invocation *)

Section Invocation.

Context {W Args R : Type}.
Implicit Types (self : Callbacks W Args R) (cb : Callback W Args R).
Implicit Types (range before after : list (Callback W Args R)).
Implicit Types (m : Machine W Args R) (arguments : Args).

Lemma Callback_call_log cb arguments m :
  call_log (Callback_call cb arguments m).2 = call_log m ++ [(cb, arguments)].
Proof. unfold Callback_call. by destruct (m_callback cb arguments (world m)). Qed.


Lemma call_all_cons cb range arguments m :
  call_all (cb :: range) arguments m =
  ((Callback_call cb arguments m).1
     :: (call_all range arguments (Callback_call cb arguments m).2).1,
   (call_all range arguments (Callback_call cb arguments m).2).2).
Proof.
  simpl. unfold bind, ret.
  destruct (Callback_call cb arguments m) as [v m1]. simpl.
  by destruct (call_all range arguments m1).
Qed.

Lemma call_all_log range arguments m :
  call_log (call_all range arguments m).2
    = call_log m ++ calls_of range arguments.
Proof.
  revert m. induction range as [|cb range IH]; intros m.
  - simpl. by rewrite app_nil_r.
  - rewrite call_all_cons. simpl. rewrite IH, Callback_call_log.
    unfold calls_of. simpl. by rewrite <- app_assoc.
Qed.


(** The plain loop is [call_all] with the results dropped. *)
Lemma for_each_call_all range arguments m :
  for_each range
    (fun callback => call _ := Callback_call callback arguments in ret tt) m
  = (tt, (call_all range arguments m).2).
Proof.
  revert m. induction range as [|cb range IH]; intros m.
  - reflexivity.
  - rewrite call_all_cons. simpl. unfold bind at 1 2. unfold ret at 1.
    destruct (Callback_call cb arguments m) as [v m1]. simpl. apply IH.
Qed.

Lemma register_all_callables self (callbacks : list (CallbackFunctionType W Args R)) :
  m_callback <$> m_callbacks (register_all self callbacks)
    = (m_callback <$> m_callbacks self) ++ callbacks.
Proof.
  revert self. induction callbacks as [|c callbacks IH]; intros self.
  - simpl. by rewrite app_nil_r.
  - change (register_all self (c :: callbacks))
      with (register_all (register_callback self c).2 callbacks).
    rewrite IH, register_callback_eq. cbn [snd m_callbacks].
    rewrite fmap_snoc. cbn [m_callback]. by rewrite <- app_assoc.
Qed.

End Invocation.

Section InvokeAll.

Context {W Args : Type}.
Implicit Types (self : Callbacks W Args unit) (m : Machine W Args unit).
Implicit Types (arguments : Args).



End InvokeAll.

(** ** The short-circuiting policies *)

Section UntilNonEmpty.

Context {W Args R : Type} `{Container.t R}.
Implicit Types (self : Callbacks W Args R) (cb : Callback W Args R).
Implicit Types (range before after : list (Callback W Args R)).
Implicit Types (m : Machine W Args R) (arguments : Args).

Lemma until_non_empty_loop_exhausted range arguments callbackReturn m :
  all_empty (call_all range arguments m).1 ->
  until_non_empty_loop range arguments callbackReturn m =
  (default callbackReturn (list.last (call_all range arguments m).1),
   (call_all range arguments m).2).
Proof.
  unfold all_empty.
  revert callbackReturn m.
  induction range as [|cb range IH]; intros callbackReturn m Hall.
  - reflexivity.
  - rewrite call_all_cons in Hall |- *. cbn [fst snd] in Hall |- *.
    apply Forall_cons_iff in Hall as [Hv Hrest].
    cbn [until_non_empty_loop]. unfold bind.
    destruct (Callback_call cb arguments m) as [v m1]. cbn [fst snd] in *.
    rewrite Hv. cbn [negb]. rewrite (IH v m1 Hrest). f_equal.
    rewrite last_cons. by destruct (list.last (call_all range arguments m1).1).
Qed.

Lemma until_non_empty_loop_stops before cb after arguments callbackReturn m :
  all_empty (call_all before arguments m).1 ->
  Container.empty
    (Callback_call cb arguments (call_all before arguments m).2).1 = false ->
  until_non_empty_loop (before ++ cb :: after) arguments callbackReturn m =
  Callback_call cb arguments (call_all before arguments m).2.
Proof.
  unfold all_empty.
  revert callbackReturn m.
  induction before as [|c before IH]; intros callbackReturn m Hall Hstop.
  - cbn [app call_all ret snd] in *. cbn [until_non_empty_loop]. unfold bind.
    destruct (Callback_call cb arguments m) as [v m1]. cbn [fst] in Hstop.
    by rewrite Hstop.
  - rewrite call_all_cons in Hall, Hstop |- *. cbn [fst snd] in Hall, Hstop |- *.
    apply Forall_cons_iff in Hall as [Hv Hrest].
    rewrite <- app_comm_cons. cbn [until_non_empty_loop]. unfold bind at 1.
    destruct (Callback_call c arguments m) as [v m1]. cbn [fst snd] in *.
    rewrite Hv. cbn [negb]. by apply IH.
Qed.

(** C4, as amended.  [invokeCallbacksUntilOneOfThemReturnsANonEmptyContainer]
    goes through the entries in vector order.  At the first entry whose
    result is not empty it stops and returns that result, having called the
    entries before it and that entry, each once, and none of the later ones.
    When every entry returns an empty result, every entry was called once
    and the value returned is the result of the last entry (an empty value
    that the callable chose); when no entry is registered, no call is made
    and the value returned is the default-constructed one.  For a return
    type whose only empty value is the default-constructed one, as for the
    standard containers, the value returned when every entry returns an
    empty result is the default-constructed one. *)
Theorem invoke_until_non_empty_policy self arguments m :
  (forall before cb after,
     m_callbacks self = before ++ cb :: after ->
     all_empty (call_all before arguments m).1 ->
     Container.empty
       (Callback_call cb arguments (call_all before arguments m).2).1 = false ->
     invokeCallbacksUntilOneOfThemReturnsANonEmptyContainer self arguments m
       = Callback_call cb arguments (call_all before arguments m).2 /\
     call_log
       (invokeCallbacksUntilOneOfThemReturnsANonEmptyContainer self arguments m).2
       = call_log m ++ calls_of (before ++ [cb]) arguments) /\
  (all_empty (call_all (m_callbacks self) arguments m).1 ->
     (invokeCallbacksUntilOneOfThemReturnsANonEmptyContainer self arguments m).1
       = default Container.ctor (list.last (call_all (m_callbacks self) arguments m).1) /\
     (invokeCallbacksUntilOneOfThemReturnsANonEmptyContainer self arguments m).2
       = (call_all (m_callbacks self) arguments m).2 /\
     call_log
       (invokeCallbacksUntilOneOfThemReturnsANonEmptyContainer self arguments m).2
       = call_log m ++ calls_of (m_callbacks self) arguments /\
     ((forall v, Container.empty v = true -> v = Container.ctor) ->
      (invokeCallbacksUntilOneOfThemReturnsANonEmptyContainer self arguments m).1
        = Container.ctor)) /\
  (m_callbacks self = [] ->
     invokeCallbacksUntilOneOfThemReturnsANonEmptyContainer self arguments m
       = (Container.ctor, m)).
Proof.
  unfold invokeCallbacksUntilOneOfThemReturnsANonEmptyContainer.
  fold (@all_empty R _).
  split; [|split].
  - intros before cb after Hsplit Hall Hstop.
    rewrite Hsplit, until_non_empty_loop_stops by done.
    split; [reflexivity|].
    rewrite Callback_call_log, call_all_log. unfold calls_of.
    by rewrite fmap_snoc, app_assoc.
  - intros Hall. rewrite until_non_empty_loop_exhausted by done.
    cbn [fst snd]. split; [reflexivity|]. split; [reflexivity|].
    split; [apply call_all_log|].
    intros Hunique.
    destruct (list.last (call_all (m_callbacks self) arguments m).1) as [v|] eqn:Hlast;
      [|reflexivity].
    simpl. apply Hunique.
    apply last_Some in Hlast as [vs Hvs]. rewrite Hvs in Hall.
    unfold all_empty in Hall.
    apply Forall_app in Hall as [_ Hv]. by inversion Hv.
  - intros ->. reflexivity.
Qed.

End UntilNonEmpty.

Section UntilNonZero.

Context {W Args : Type}.
Implicit Types (self : Callbacks W Args bool) (cb : Callback W Args bool).
Implicit Types (range before after : list (Callback W Args bool)).
Implicit Types (m : Machine W Args bool) (arguments : Args).

Lemma until_non_zero_loop_exhausted range arguments m :
  all_false (call_all range arguments m).1 ->
  until_non_zero_loop range arguments m = (false, (call_all range arguments m).2).
Proof.
  unfold all_false.
  revert m. induction range as [|cb range IH]; intros m Hall.
  - reflexivity.
  - rewrite call_all_cons in Hall |- *. cbn [fst snd] in Hall |- *.
    apply Forall_cons_iff in Hall as [Hv Hrest].
    cbn [until_non_zero_loop]. unfold bind.
    destruct (Callback_call cb arguments m) as [v m1]. cbn [fst snd] in *.
    rewrite Hv. by apply IH.
Qed.

Lemma until_non_zero_loop_stops before cb after arguments m :
  all_false (call_all before arguments m).1 ->
  (Callback_call cb arguments (call_all before arguments m).2).1 = true ->
  until_non_zero_loop (before ++ cb :: after) arguments m =
  (true, (Callback_call cb arguments (call_all before arguments m).2).2).
Proof.
  unfold all_false.
  revert m. induction before as [|c before IH]; intros m Hall Hstop.
  - cbn [app call_all ret snd] in *. cbn [until_non_zero_loop]. unfold bind.
    destruct (Callback_call cb arguments m) as [v m1]. cbn [fst] in Hstop.
    by rewrite Hstop.
  - rewrite call_all_cons in Hall, Hstop |- *. cbn [fst snd] in Hall, Hstop |- *.
    apply Forall_cons_iff in Hall as [Hv Hrest].
    rewrite <- app_comm_cons. cbn [until_non_zero_loop]. unfold bind at 1.
    destruct (Callback_call c arguments m) as [v m1]. cbn [fst snd] in *.
    rewrite Hv. by apply IH.
Qed.

Lemma until_non_zero_loop_false range arguments m :
  (until_non_zero_loop range arguments m).1 = false ->
  all_false (call_all range arguments m).1.
Proof.
  unfold all_false.
  revert m. induction range as [|cb range IH]; intros m Hres.
  - constructor.
  - rewrite call_all_cons. cbn [fst].
    cbn [until_non_zero_loop] in Hres. unfold bind in Hres.
    destruct (Callback_call cb arguments m) as [v m1]. cbn [fst snd].
    destruct v; [discriminate|]. constructor; [reflexivity | by apply IH].
Qed.

(** C5.  [invokeCallbacksUntilOneOfThemReturnsANonZeroValue] goes through
    the entries in vector order.  At the first entry that returns true it
    returns true, having called the entries before it and that entry, each
    once, and none of the later ones.  It returns false exactly when every
    entry returns false, and then every entry was called, once each and in
    order; with no entry registered it returns false without any call. *)
Theorem invoke_until_true_policy self arguments m :
  (forall before cb after,
     m_callbacks self = before ++ cb :: after ->
     all_false (call_all before arguments m).1 ->
     (Callback_call cb arguments (call_all before arguments m).2).1 = true ->
     invokeCallbacksUntilOneOfThemReturnsANonZeroValue self arguments m
       = (true, (Callback_call cb arguments (call_all before arguments m).2).2) /\
     call_log
       (invokeCallbacksUntilOneOfThemReturnsANonZeroValue self arguments m).2
       = call_log m ++ calls_of (before ++ [cb]) arguments) /\
  ((invokeCallbacksUntilOneOfThemReturnsANonZeroValue self arguments m).1 = false
     <-> all_false (call_all (m_callbacks self) arguments m).1) /\
  ((invokeCallbacksUntilOneOfThemReturnsANonZeroValue self arguments m).1 = false ->
     (invokeCallbacksUntilOneOfThemReturnsANonZeroValue self arguments m).2
       = (call_all (m_callbacks self) arguments m).2 /\
     call_log
       (invokeCallbacksUntilOneOfThemReturnsANonZeroValue self arguments m).2
       = call_log m ++ calls_of (m_callbacks self) arguments) /\
  (m_callbacks self = [] ->
     invokeCallbacksUntilOneOfThemReturnsANonZeroValue self arguments m
       = (false, m)).
Proof.
  unfold invokeCallbacksUntilOneOfThemReturnsANonZeroValue.
  split; [|split; [|split]].
  - intros before cb after Hsplit Hall Hstop.
    rewrite Hsplit, until_non_zero_loop_stops by done.
    split; [reflexivity|]. cbn [snd].
    rewrite Callback_call_log, call_all_log. unfold calls_of.
    by rewrite fmap_snoc, app_assoc.
  - split; [apply until_non_zero_loop_false|].
    intros Hall. by rewrite until_non_zero_loop_exhausted.
  - intros Hall%until_non_zero_loop_false.
    rewrite until_non_zero_loop_exhausted by done.
    split; [reflexivity | apply call_all_log].
  - intros ->. reflexivity.
Qed.

End UntilNonZero.

(** ** Clearing the registry *)


(** ** The policies at work *)

Module Scenarios.
Import Fixtures.

(** Loggers registered with tags 3, 1, 2 write 3, 1, 2 to the log. *)
Example three_loggers_log :
  world (invokeCallbacks three_loggers tt (fresh [])).2 = [3; 1; 2]%nat.
Proof. reflexivity. Qed.

(** C4, as stated, fails: the only handler returns an empty reply with
    status 7; the loop returns that reply, which is not the
    default-constructed one. *)
Lemma all_empty_result_is_the_last_one :
  all_empty (call_all (m_callbacks declining) tt (fresh 0%nat)).1 /\
  (invokeCallbacksUntilOneOfThemReturnsANonEmptyContainer
     declining tt (fresh 0%nat)).1 = {| payload := []; status := 7 |} /\
  (invokeCallbacksUntilOneOfThemReturnsANonEmptyContainer
     declining tt (fresh 0%nat)).1 <> Container.ctor.
Proof.
  split; [|split].
  - repeat constructor.
  - reflexivity.
  - discriminate.
Qed.

(** Handlers returning empty, [88], [89]: the call returns [88] after two
    executions; the third handler is not called. *)
Lemma invoke_until_non_empty_policy_witness :
  all_empty
    (call_all [{| m_id := 1; m_callback := counting (@nil Z) |}] tt (fresh 0%nat)).1 /\
  (invokeCallbacksUntilOneOfThemReturnsANonEmptyContainer
     three_handlers tt (fresh 0%nat)).1 = [88] /\
  world (invokeCallbacksUntilOneOfThemReturnsANonEmptyContainer
           three_handlers tt (fresh 0%nat)).2 = 2%nat /\
  length (call_log (invokeCallbacksUntilOneOfThemReturnsANonEmptyContainer
                      three_handlers tt (fresh 0%nat)).2) = 2%nat.
Proof.
  assert (Hbefore : all_empty
    (call_all [{| m_id := 1; m_callback := counting (@nil Z) |}] tt
       (fresh 0%nat)).1) by (repeat constructor).
  split; [exact Hbefore|].
  destruct (invoke_until_non_empty_policy three_handlers tt (fresh 0%nat))
    as (Hstop & _).
  destruct (Hstop [{| m_id := 1; m_callback := counting (@nil Z) |}]
                  {| m_id := 2; m_callback := counting [88] |}
                  [{| m_id := 3; m_callback := counting [89] |}]
                  eq_refl Hbefore eq_refl) as [Hresult Hlog].
  rewrite Hlog, Hresult. repeat split.
Defined.

(** Handlers returning false, false, true, false: the call returns true
    after three executions; the fourth handler is not called. *)
Lemma invoke_until_true_policy_witness :
  all_false
    (call_all [{| m_id := 1; m_callback := counting false |};
               {| m_id := 2; m_callback := counting false |}]
       tt (fresh 0%nat)).1 /\
  (invokeCallbacksUntilOneOfThemReturnsANonZeroValue
     four_answers tt (fresh 0%nat)).1 = true /\
  world (invokeCallbacksUntilOneOfThemReturnsANonZeroValue
           four_answers tt (fresh 0%nat)).2 = 3%nat /\
  length (call_log (invokeCallbacksUntilOneOfThemReturnsANonZeroValue
                      four_answers tt (fresh 0%nat)).2) = 3%nat.
Proof.
  assert (Hbefore : all_false
    (call_all [{| m_id := 1; m_callback := counting false |};
               {| m_id := 2; m_callback := counting false |}]
       tt (fresh 0%nat)).1) by (repeat constructor).
  split; [exact Hbefore|].
  destruct (invoke_until_true_policy four_answers tt (fresh 0%nat))
    as (Hstop & _).
  destruct (Hstop [{| m_id := 1; m_callback := counting false |};
                   {| m_id := 2; m_callback := counting false |}]
                  {| m_id := 3; m_callback := counting true |}
                  [{| m_id := 4; m_callback := counting false |}]
                  eq_refl Hbefore eq_refl) as [Hresult Hlog].
  rewrite Hlog, Hresult. repeat split.
Defined.

End Scenarios.

(** ** How the registry operations compose *)

Section Composition.

Context {W Args R : Type}.
Implicit Types (self : Callbacks W Args R) (cb : Callback W Args R).
Implicit Types (range before after : list (Callback W Args R)).
Implicit Types (callback : CallbackFunctionType W Args R).

Lemma erase_first_middle before cb after callbackID :
  Forall (fun c => m_id c <> callbackID) before ->
  m_id cb = callbackID ->
  erase_first (before ++ cb :: after) callbackID = before ++ after.
Proof.
  intros Hbefore Hcb. induction Hbefore as [|c before Hc _ IH]; simpl.
  - rewrite Hcb. by rewrite Z.eqb_refl.
  - destruct (Z.eqb_spec (m_id c) callbackID); [done|]. by rewrite IH.
Qed.

Lemma erase_first_absent range callbackID :
  callbackID ∉ m_id <$> range -> erase_first range callbackID = range.
Proof.
  induction range as [|c range IH]; simpl; [done|].
  rewrite not_elem_of_cons. intros [Hne Hnin].
  destruct (Z.eqb_spec (m_id c) callbackID); [congruence|]. by rewrite IH.
Qed.

(** The index scan followed by [erase] removes the first match. *)
Lemma deregister_callback_erase_first self callbackID :
  deregister_callback self callbackID =
  (bool_decide (callbackID ∈ ids self),
   {| m_callbacks := erase_first (m_callbacks self) callbackID;
      m_lastAssignedCallback_ID := m_lastAssignedCallback_ID self |}).
Proof.
  destruct (decide (callbackID ∈ ids self)) as [Hin|Hnin].
  - destruct (deregister_callback_found _ _ Hin)
      as (before & cb & after & Hsplit & Hid & Hall & ->).
    rewrite bool_decide_eq_true_2 by done.
    by rewrite Hsplit, erase_first_middle.
  - rewrite deregister_callback_not_found, bool_decide_eq_false_2 by done.
    rewrite erase_first_absent by done. by destruct self.
Qed.

Lemma erase_first_comm range a b :
  erase_first (erase_first range a) b = erase_first (erase_first range b) a.
Proof.
  induction range as [|c range IH]; simpl; [done|].
  destruct (Z.eqb_spec (m_id c) a) as [Ha|Ha];
    destruct (Z.eqb_spec (m_id c) b) as [Hb|Hb]; simpl.
  - congruence.
  - by rewrite (proj2 (Z.eqb_eq _ _) Ha).
  - by rewrite (proj2 (Z.eqb_eq _ _) Hb).
  - rewrite (proj2 (Z.eqb_neq _ _) Ha), (proj2 (Z.eqb_neq _ _) Hb).
    by rewrite IH.
Qed.

Lemma elem_of_ids_erase_first range a b :
  a <> b -> b ∈ m_id <$> erase_first range a <-> b ∈ m_id <$> range.
Proof.
  intros Hab. induction range as [|c range IH]; simpl; [done|].
  destruct (Z.eqb_spec (m_id c) a) as [Ha|Ha].
  - rewrite elem_of_cons. split; [tauto|]. intros [Hb|Hb]; [congruence|done].
  - rewrite fmap_cons, !elem_of_cons, IH. done.
Qed.

Lemma erase_first_NoDup range callbackID :
  NoDup (m_id <$> range) -> callbackID ∉ m_id <$> erase_first range callbackID.
Proof.
  induction range as [|c range IH]; simpl; intros Hnodup.
  - apply not_elem_of_nil.
  - apply list.NoDup_cons in Hnodup as [Hc Hrange].
    destruct (Z.eqb_spec (m_id c) callbackID) as [<-|Hne]; [done|].
    rewrite fmap_cons, not_elem_of_cons. split; [congruence | by apply IH].
Qed.

(** X1.  Registering a callable and deregistering the id just returned
    gives back the vector as it was, provided that id was not already borne
    by an entry; the deregistration returns true, and the counter stays at
    the id that was issued. *)
Theorem register_then_deregister_restores_entries self callback :
  (register_callback self callback).1 ∉ ids self ->
  deregister_callback (register_callback self callback).2
                      (register_callback self callback).1
  = (true,
     {| m_callbacks := m_callbacks self;
        m_lastAssignedCallback_ID := (register_callback self callback).1 |}).
Proof.
  intros Hfresh. rewrite deregister_callback_erase_first.
  rewrite bool_decide_eq_true_2.
  - rewrite register_callback_eq in Hfresh |- *. cbn [fst snd] in *.
    cbn [m_callbacks m_lastAssignedCallback_ID].
    rewrite erase_first_middle.
    + rewrite app_nil_r. reflexivity.
    + apply list.Forall_forall. intros c Hc Heq. apply Hfresh.
      unfold ids. rewrite <- Heq. by apply list_elem_of_fmap_2.
    + reflexivity.
  - rewrite ids_register. apply elem_of_app. right.
    by apply list_elem_of_singleton.
Qed.

(** X2.  Deregistrations of two different ids commute: either order leaves
    the same registry, and whether one id is found does not depend on the
    other having been removed first. *)
Theorem deregister_callback_commutes self a b :
  a <> b ->
  (deregister_callback (deregister_callback self a).2 b).2
    = (deregister_callback (deregister_callback self b).2 a).2 /\
  (deregister_callback (deregister_callback self a).2 b).1
    = (deregister_callback self b).1 /\
  (deregister_callback (deregister_callback self b).2 a).1
    = (deregister_callback self a).1.
Proof.
  intros Hab. rewrite !deregister_callback_erase_first.
  cbn [fst snd m_callbacks m_lastAssignedCallback_ID]. unfold ids.
  cbn [m_callbacks]. split; [by rewrite erase_first_comm|].
  split; apply bool_decide_ext, elem_of_ids_erase_first; congruence.
Qed.

(** X3.  Deregistering, one after the other and in vector order, the ids of
    all the entries of a registry empties it just as
    [deregister_all_callbacks] does, whether or not ids repeat. *)
Theorem deregister_each_id_is_deregister_all self :
  deregister_each self (ids self) = deregister_all_callbacks self.
Proof.
  destruct self as [range counter]. unfold deregister_each, ids.
  cbn [m_callbacks]. induction range as [|c range IH]; [done|].
  rewrite fmap_cons. cbn [foldl].
  rewrite deregister_callback_erase_first.
  cbn [snd m_callbacks m_lastAssignedCallback_ID erase_first].
  rewrite Z.eqb_refl. exact IH.
Qed.

(** X4.  Deregistrations never influence the ids: after any sequence of
    calls in which [n] registrations were made on a registry whose counter
    started at [stored], the ids issued are the values [stored + 1], ...,
    [stored + n] wrapped to [int], in that order, and the next registration
    returns [stored + n + 1] wrapped to [int]. *)
Theorem issued_ids_depend_on_registrations_only stored issued self callback :
  Reach stored issued self ->
  issued = issued_ids stored (Z.of_nat (length issued)) /\
  (register_callback self callback).1
    = Int.wrap_int (stored + Z.of_nat (length issued) + 1).
Proof.
  intros Hreach. split.
  - by destruct (Reach_invariant _ _ _ Hreach) as (_ & Hiss & _).
  - by apply Reach_next_id.
Qed.

(** X5.  On a counter that holds an [int], [register_callback] returns the
    counter plus one, except at [INT_MAX], where it returns [INT_MIN]. *)
Theorem register_callback_at_INT_MAX self callback :
  Int.in_range (m_lastAssignedCallback_ID self) ->
  (register_callback self callback).1
    = if m_lastAssignedCallback_ID self =? Int.MAX then Int.MIN
      else m_lastAssignedCallback_ID self + 1.
Proof.
  intros Hrange. rewrite register_callback_eq. cbn [fst].
  destruct (Z.eqb_spec (m_lastAssignedCallback_ID self) Int.MAX) as [->|Hne].
  - reflexivity.
  - apply IntFacts.wrap_int_id.
    unfold Int.in_range, Int.MIN, Int.MAX in *. lia.
Qed.

(** X6.  Registering a list of callables appends one entry per callable, in
    the order of the list: the callables of the new entries are the list,
    their ids are the next counter values, and the counter has advanced by
    the length of the list, modulo 2^32. *)
Theorem register_all_appends_in_order self
    (callbacks : list (CallbackFunctionType W Args R)) :
  m_callback <$> m_callbacks (register_all self callbacks)
    = (m_callback <$> m_callbacks self) ++ callbacks /\
  ids (register_all self callbacks)
    = ids self ++ issued_ids (m_lastAssignedCallback_ID self)
                             (Z.of_nat (length callbacks)) /\
  Int.wrap_int (m_lastAssignedCallback_ID (register_all self callbacks))
    = Int.wrap_int (m_lastAssignedCallback_ID self
                    + Z.of_nat (length callbacks)).
Proof.
  split; [apply register_all_callables|].
  induction callbacks as [|c callbacks [IHids IHctr]] using rev_ind.
  - cbn [register_all foldl length]. unfold issued_ids. simpl.
    by rewrite app_nil_r, Z.add_0_r.
  - unfold register_all in *. rewrite foldl_app. cbn [foldl].
    set (mid := foldl _ self callbacks) in *.
    assert (Hnew : (register_callback mid c).1
              = Int.wrap_int (m_lastAssignedCallback_ID self
                              + (1 + Z.of_nat (length callbacks)))).
    { rewrite register_callback_eq. cbn [fst].
      rewrite <- IntFacts.wrap_int_add_l, IHctr, IntFacts.wrap_int_add_l.
      apply (f_equal Int.wrap_int). lia. }
    rewrite length_app. cbn [length].
    replace (length callbacks + 1)%nat with (S (length callbacks)) by lia.
    split.
    + rewrite ids_register, IHids, Hnew, issued_ids_snoc.
      by rewrite <- app_assoc.
    + rewrite register_callback_eq in Hnew |- *. cbn [fst snd] in *.
      cbn [m_lastAssignedCallback_ID]. rewrite Hnew.
      rewrite IntFacts.wrap_int_id by apply IntFacts.wrap_int_in_range.
      apply (f_equal Int.wrap_int). lia.
Qed.

End Composition.

(** ** How registration and invocation compose *)

Section InvocationComposition.

Context {W Args R : Type}.
Implicit Types (self : Callbacks W Args R) (cb : Callback W Args R).
Implicit Types (range before after : list (Callback W Args R)).
Implicit Types (m : Machine W Args R) (arguments : Args).
Implicit Types (callback : CallbackFunctionType W Args R).

Lemma call_all_app before after arguments m :
  call_all (before ++ after) arguments m =
  ((call_all before arguments m).1
     ++ (call_all after arguments (call_all before arguments m).2).1,
   (call_all after arguments (call_all before arguments m).2).2).
Proof.
  revert m. induction before as [|cb before IH]; intros m.
  - simpl. unfold ret. simpl. by destruct (call_all after arguments m).
  - rewrite <- app_comm_cons, !call_all_cons, IH. reflexivity.
Qed.

(** Going through [range] and testing every result with [accepts], either
    no result is accepted or there is a first entry whose result is. *)
Lemma call_all_first_accepted (accepts : R -> bool) range arguments m :
  Forall (fun v => accepts v = false) (call_all range arguments m).1 \/
  exists before cb after,
    range = before ++ cb :: after /\
    Forall (fun v => accepts v = false) (call_all before arguments m).1 /\
    accepts (Callback_call cb arguments (call_all before arguments m).2).1
      = true.
Proof.
  revert m. induction range as [|c range IH]; intros m.
  - left. constructor.
  - destruct (accepts (Callback_call c arguments m).1) eqn:Hc.
    + right. exists [], c, range. repeat split; [constructor | exact Hc].
    + destruct (IH (Callback_call c arguments m).2)
        as [Hall | (before & cb & after & -> & Hall & Hcb)].
      * left. rewrite call_all_cons. by constructor.
      * right. exists (c :: before), cb, after.
        rewrite call_all_cons. cbn [fst snd].
        repeat split; [by constructor | exact Hcb].
Qed.

End InvocationComposition.

Section InvokeAllComposition.

Context {W Args : Type}.
Implicit Types (self : Callbacks W Args unit) (m : Machine W Args unit).
Implicit Types (arguments : Args).
Implicit Types (callback : CallbackFunctionType W Args unit).

Lemma invokeCallbacks_call_all self arguments m :
  invokeCallbacks self arguments m
    = (tt, (call_all (m_callbacks self) arguments m).2).
Proof. unfold invokeCallbacks. apply for_each_call_all. Qed.

(** X7.  For a registry of callbacks returning [void], a newly registered
    callable is called last: invoking all callbacks of the registry after a
    registration is invoking all callbacks of the registry before it and
    then calling the new entry, on the machine state that the earlier
    callbacks left. *)
Theorem invokeCallbacks_after_register self callback arguments m :
  invokeCallbacks (register_callback self callback).2 arguments m
  = (tt,
     (Callback_call
        {| m_id := (register_callback self callback).1;
           m_callback := callback |}
        arguments (invokeCallbacks self arguments m).2).2).
Proof.
  rewrite !invokeCallbacks_call_all, register_callback_eq.
  cbn [fst snd m_callbacks]. rewrite call_all_app, call_all_cons.
  reflexivity.
Qed.

End InvokeAllComposition.

Section UntilNonEmptyComposition.

Context {W Args R : Type} `{Container.t R}.
Implicit Types (self : Callbacks W Args R) (cb : Callback W Args R).
Implicit Types (range before after : list (Callback W Args R)).
Implicit Types (m : Machine W Args R) (arguments : Args).
Implicit Types (callback : CallbackFunctionType W Args R).

Lemma until_non_empty_loop_app before after arguments callbackReturn m :
  Container.empty callbackReturn = true ->
  until_non_empty_loop (before ++ after) arguments callbackReturn m =
  if Container.empty (until_non_empty_loop before arguments callbackReturn m).1
  then until_non_empty_loop after arguments
         (until_non_empty_loop before arguments callbackReturn m).1
         (until_non_empty_loop before arguments callbackReturn m).2
  else until_non_empty_loop before arguments callbackReturn m.
Proof.
  revert callbackReturn m.
  induction before as [|c before IH]; intros callbackReturn m Hempty.
  - cbn [app until_non_empty_loop ret fst snd]. by rewrite Hempty.
  - rewrite <- app_comm_cons. cbn [until_non_empty_loop]. unfold bind.
    destruct (Callback_call c arguments m) as [v m1].
    destruct (Container.empty v) eqn:Hv; cbn [negb].
    + by apply IH.
    + cbn [ret fst]. by rewrite Hv.
Qed.

Lemma until_non_empty_loop_single cb arguments callbackReturn m :
  until_non_empty_loop [cb] arguments callbackReturn m
    = Callback_call cb arguments m.
Proof.
  cbn [until_non_empty_loop]. unfold bind, ret.
  destruct (Callback_call cb arguments m) as [v m1].
  by destruct (negb (Container.empty v)).
Qed.

Lemma until_non_empty_loop_cases range arguments callbackReturn m :
  (all_empty (call_all range arguments m).1 /\
   until_non_empty_loop range arguments callbackReturn m
     = (default callbackReturn (list.last (call_all range arguments m).1),
        (call_all range arguments m).2)) \/
  (exists before cb after,
     range = before ++ cb :: after /\
     all_empty (call_all before arguments m).1 /\
     Container.empty
       (Callback_call cb arguments (call_all before arguments m).2).1 = false /\
     until_non_empty_loop range arguments callbackReturn m
       = Callback_call cb arguments (call_all before arguments m).2).
Proof.
  destruct (call_all_first_accepted (fun v => negb (Container.empty v))
              range arguments m)
    as [Hall | (before & cb & after & -> & Hall & Hcb)].
  - left.
    assert (Hall' : all_empty (call_all range arguments m).1).
    { eapply Forall_impl; [|exact Hall]. intros v Hv.
      by apply negb_false_iff in Hv. }
    split; [exact Hall' | by apply until_non_empty_loop_exhausted].
  - right. exists before, cb, after.
    assert (Hall' : all_empty (call_all before arguments m).1).
    { eapply Forall_impl; [|exact Hall]. intros v Hv.
      by apply negb_false_iff in Hv. }
    apply negb_true_iff in Hcb.
    repeat split; [exact Hall' | exact Hcb |].
    by apply until_non_empty_loop_stops.
Qed.

(** What the until-non-empty loop called is a prefix of the vector. *)
Lemma until_non_empty_loop_prefix range arguments callbackReturn m :
  exists called,
    called `prefix_of` range /\
    (until_non_empty_loop range arguments callbackReturn m).2
      = (call_all called arguments m).2.
Proof.
  destruct (until_non_empty_loop_cases range arguments callbackReturn m)
    as [[_ ->] | (before & cb & after & -> & _ & _ & ->)].
  - exists range. done.
  - exists (before ++ [cb]). split.
    + exists after. by rewrite <- app_assoc.
    + rewrite call_all_app, call_all_cons. reflexivity.
Qed.

(** X9.  For a return type whose default-constructed value is empty, a
    newly registered callable is the last resort of the until-non-empty
    loop: when the loop over the earlier entries returns a non-empty value,
    the new entry changes nothing and is not called; when it returns an
    empty value, the new entry is called on the machine state the earlier
    ones left, and its result is the result. *)
Theorem invoke_until_non_empty_after_register self callback arguments m :
  Container.empty (Container.ctor : R) = true ->
  invokeCallbacksUntilOneOfThemReturnsANonEmptyContainer
    (register_callback self callback).2 arguments m
  = if Container.empty
         (invokeCallbacksUntilOneOfThemReturnsANonEmptyContainer
            self arguments m).1
    then Callback_call
           {| m_id := (register_callback self callback).1;
              m_callback := callback |}
           arguments
           (invokeCallbacksUntilOneOfThemReturnsANonEmptyContainer
              self arguments m).2
    else invokeCallbacksUntilOneOfThemReturnsANonEmptyContainer
           self arguments m.
Proof.
  intros Hdefault.
  unfold invokeCallbacksUntilOneOfThemReturnsANonEmptyContainer.
  rewrite register_callback_eq. cbn [fst snd m_callbacks].
  rewrite until_non_empty_loop_app by exact Hdefault.
  by rewrite until_non_empty_loop_single.
Qed.

(** X11.  Every run of the until-non-empty loop is of one of two kinds.
    Either every entry returns an empty result, all entries are called, and
    the value returned is the last result (the default-constructed value
    when there is no entry); or there is a first entry whose result is not
    empty, the entries up to it are called, and its result is returned. *)
Theorem invoke_until_non_empty_cases self arguments m :
  (all_empty (call_all (m_callbacks self) arguments m).1 /\
   invokeCallbacksUntilOneOfThemReturnsANonEmptyContainer self arguments m
     = (default Container.ctor
          (list.last (call_all (m_callbacks self) arguments m).1),
        (call_all (m_callbacks self) arguments m).2)) \/
  (exists before cb after,
     m_callbacks self = before ++ cb :: after /\
     all_empty (call_all before arguments m).1 /\
     Container.empty
       (Callback_call cb arguments (call_all before arguments m).2).1 = false /\
     invokeCallbacksUntilOneOfThemReturnsANonEmptyContainer self arguments m
       = Callback_call cb arguments (call_all before arguments m).2).
Proof. apply until_non_empty_loop_cases. Qed.

End UntilNonEmptyComposition.

Section UntilNonZeroComposition.

Context {W Args : Type}.
Implicit Types (self : Callbacks W Args bool) (cb : Callback W Args bool).
Implicit Types (range before after : list (Callback W Args bool)).
Implicit Types (m : Machine W Args bool) (arguments : Args).
Implicit Types (callback : CallbackFunctionType W Args bool).

Lemma until_non_zero_loop_app before after arguments m :
  until_non_zero_loop (before ++ after) arguments m =
  if (until_non_zero_loop before arguments m).1
  then until_non_zero_loop before arguments m
  else until_non_zero_loop after arguments
         (until_non_zero_loop before arguments m).2.
Proof.
  revert m. induction before as [|c before IH]; intros m.
  - reflexivity.
  - rewrite <- app_comm_cons. cbn [until_non_zero_loop]. unfold bind.
    destruct (Callback_call c arguments m) as [v m1].
    destruct v; [reflexivity | apply IH].
Qed.

Lemma until_non_zero_loop_single cb arguments m :
  until_non_zero_loop [cb] arguments m = Callback_call cb arguments m.
Proof.
  cbn [until_non_zero_loop]. unfold bind, ret.
  destruct (Callback_call cb arguments m) as [v m1]. by destruct v.
Qed.

Lemma until_non_zero_loop_cases range arguments m :
  (all_false (call_all range arguments m).1 /\
   until_non_zero_loop range arguments m
     = (false, (call_all range arguments m).2)) \/
  (exists before cb after,
     range = before ++ cb :: after /\
     all_false (call_all before arguments m).1 /\
     (Callback_call cb arguments (call_all before arguments m).2).1 = true /\
     until_non_zero_loop range arguments m
       = (true, (Callback_call cb arguments (call_all before arguments m).2).2)).
Proof.
  destruct (call_all_first_accepted (fun v : bool => v) range arguments m)
    as [Hall | (before & cb & after & -> & Hall & Hcb)].
  - left. split; [exact Hall | by apply until_non_zero_loop_exhausted].
  - right. exists before, cb, after.
    repeat split; [exact Hall | exact Hcb |].
    by apply until_non_zero_loop_stops.
Qed.

(** What the until-true loop called is a prefix of the vector. *)
Lemma until_non_zero_loop_prefix range arguments m :
  exists called,
    called `prefix_of` range /\
    (until_non_zero_loop range arguments m).2
      = (call_all called arguments m).2.
Proof.
  destruct (until_non_zero_loop_cases range arguments m)
    as [[_ ->] | (before & cb & after & -> & _ & _ & ->)].
  - exists range. done.
  - exists (before ++ [cb]). split.
    + exists after. by rewrite <- app_assoc.
    + rewrite call_all_app, call_all_cons. reflexivity.
Qed.

(** X8.  A newly registered callable is the last resort of the until-true
    loop: when the loop over the earlier entries returns true, the new
    entry changes nothing and is not called; when it returns false, the new
    entry is called on the machine state the earlier ones left, and its
    answer is the answer. *)
Theorem invoke_until_true_after_register self callback arguments m :
  invokeCallbacksUntilOneOfThemReturnsANonZeroValue
    (register_callback self callback).2 arguments m
  = if (invokeCallbacksUntilOneOfThemReturnsANonZeroValue self arguments m).1
    then invokeCallbacksUntilOneOfThemReturnsANonZeroValue self arguments m
    else Callback_call
           {| m_id := (register_callback self callback).1;
              m_callback := callback |}
           arguments
           (invokeCallbacksUntilOneOfThemReturnsANonZeroValue
              self arguments m).2.
Proof.
  unfold invokeCallbacksUntilOneOfThemReturnsANonZeroValue.
  rewrite register_callback_eq. cbn [fst snd m_callbacks].
  by rewrite until_non_zero_loop_app, until_non_zero_loop_single.
Qed.

(** X10.  Every run of the until-true loop is of one of two kinds.  Either
    every entry returns false, all entries are called and false is
    returned; or there is a first entry that returns true, the entries up
    to it are called, and true is returned. *)
Theorem invoke_until_true_cases self arguments m :
  (all_false (call_all (m_callbacks self) arguments m).1 /\
   invokeCallbacksUntilOneOfThemReturnsANonZeroValue self arguments m
     = (false, (call_all (m_callbacks self) arguments m).2)) \/
  (exists before cb after,
     m_callbacks self = before ++ cb :: after /\
     all_false (call_all before arguments m).1 /\
     (Callback_call cb arguments (call_all before arguments m).2).1 = true /\
     invokeCallbacksUntilOneOfThemReturnsANonZeroValue self arguments m
       = (true, (Callback_call cb arguments (call_all before arguments m).2).2)).
Proof. apply until_non_zero_loop_cases. Qed.

End UntilNonZeroComposition.

(** ** Deregistered callbacks stay silent *)

Section Silence.

Context {W Args R : Type}.
Implicit Types (self : Callbacks W Args R) (cb : Callback W Args R).
Implicit Types (range called : list (Callback W Args R)).

Lemma prefix_without_id range called callbackID :
  called `prefix_of` range ->
  callbackID ∉ m_id <$> range ->
  Forall (fun cb => m_id cb <> callbackID) called.
Proof.
  intros [rest ->] Hnin. apply list.Forall_forall. intros cb Hcb Heq.
  apply Hnin. rewrite <- Heq. apply list_elem_of_fmap_2.
  apply elem_of_app. by left.
Qed.

Lemma deregister_callback_absent_after self callbackID :
  NoDup (ids self) ->
  NoDup (ids (deregister_callback self callbackID).2) /\
  callbackID ∉ ids (deregister_callback self callbackID).2.
Proof.
  intros Hnodup. split.
  - eapply sublist_NoDup; [exact Hnodup|]. unfold ids.
    apply fmap_sublist, deregister_callback_sublist.
  - rewrite deregister_callback_erase_first. unfold ids. cbn [snd m_callbacks].
    by apply erase_first_NoDup.
Qed.

End Silence.

(** X14.  On a registry whose entries have distinct ids, deregistering an
    id leaves the ids distinct and leaves no entry with that id; from then
    on no invoking member calls an entry with that id: every call that
    [invokeCallbacks] (at the return type [void], where it has defined
    behaviour), the until-non-empty loop or the until-true loop logs is to
    an entry whose id is another one. *)
Theorem deregistered_callback_is_never_called :
  (forall (W Args R : Type) (self : Callbacks W Args R) callbackID,
     NoDup (ids self) ->
     NoDup (ids (deregister_callback self callbackID).2) /\
     (callbackID ∉ ids (deregister_callback self callbackID).2)) /\
  (forall (W Args : Type) (self : Callbacks W Args unit) callbackID,
     NoDup (ids self) ->
     forall arguments m,
     exists called,
       call_log (invokeCallbacks (deregister_callback self callbackID).2
                   arguments m).2
         = call_log m ++ calls_of called arguments /\
       Forall (fun cb => m_id cb <> callbackID) called) /\
  (forall (W Args R : Type) (C : Container.t R) (self : Callbacks W Args R)
          callbackID,
     NoDup (ids self) ->
     forall arguments m,
     exists called,
       call_log (invokeCallbacksUntilOneOfThemReturnsANonEmptyContainer
                   (deregister_callback self callbackID).2 arguments m).2
         = call_log m ++ calls_of called arguments /\
       Forall (fun cb => m_id cb <> callbackID) called) /\
  (forall (W Args : Type) (self : Callbacks W Args bool) callbackID,
     NoDup (ids self) ->
     forall arguments m,
     exists called,
       call_log (invokeCallbacksUntilOneOfThemReturnsANonZeroValue
                   (deregister_callback self callbackID).2 arguments m).2
         = call_log m ++ calls_of called arguments /\
       Forall (fun cb => m_id cb <> callbackID) called).
Proof.
  split; [|split; [|split]].
  - intros W Args R self callbackID Hnodup.
    by apply deregister_callback_absent_after.
  - intros W Args self callbackID Hnodup arguments m.
    destruct (deregister_callback_absent_after self callbackID Hnodup)
      as [_ Hgone].
    exists (m_callbacks (deregister_callback self callbackID).2). split.
    + rewrite invokeCallbacks_call_all. apply call_all_log.
    + by apply (prefix_without_id _ _ _ (reflexivity _)).
  - intros W Args R C self callbackID Hnodup arguments m.
    destruct (deregister_callback_absent_after self callbackID Hnodup)
      as [_ Hgone].
    destruct (until_non_empty_loop_prefix
                (m_callbacks (deregister_callback self callbackID).2)
                arguments Container.ctor m) as (called & Hprefix & Hrun).
    exists called. split.
    + unfold invokeCallbacksUntilOneOfThemReturnsANonEmptyContainer.
      rewrite Hrun. apply call_all_log.
    + by eapply prefix_without_id.
  - intros W Args self callbackID Hnodup arguments m.
    destruct (deregister_callback_absent_after self callbackID Hnodup)
      as [_ Hgone].
    destruct (until_non_zero_loop_prefix
                (m_callbacks (deregister_callback self callbackID).2)
                arguments m) as (called & Hprefix & Hrun).
    exists called. split.
    + unfold invokeCallbacksUntilOneOfThemReturnsANonZeroValue.
      rewrite Hrun. apply call_all_log.
    + by eapply prefix_without_id.
Qed.

(** ** The compositions at work *)

Module CompositionScenarios.
Import Fixtures.

Lemma NoDup_1_2_3_4 : NoDup [1; 2; 3; 4].
Proof.
  repeat (apply list.NoDup_cons; split;
          [rewrite ?elem_of_cons, elem_of_nil; lia|]).
  apply NoDup_nil_2.
Qed.

(** The example of the README: register on a new registry, then deregister
    the id returned. *)
Lemma register_then_deregister_restores_entries_witness :
  ((register_callback (Callbacks_ctor 0) noop).1
     ∉ ids (Callbacks_ctor 0 : Callbacks unit unit unit)) /\
  deregister_callback (register_callback (Callbacks_ctor 0) noop).2 1
    = (true, {| m_callbacks := []; m_lastAssignedCallback_ID := 1 |}).
Proof.
  assert (Hfresh : (register_callback (Callbacks_ctor 0) noop).1
                     ∉ ids (Callbacks_ctor 0 : Callbacks unit unit unit))
    by apply not_elem_of_nil.
  split; [exact Hfresh|].
  exact (register_then_deregister_restores_entries
           (Callbacks_ctor 0) noop Hfresh).
Defined.

(** Two entries, ids 1 and 2, removed in either order. *)
Lemma deregister_callback_commutes_witness :
  1 <> 2 /\
  (deregister_callback
     (deregister_callback (register_all (Callbacks_ctor 0) [noop; noop]) 1).2
     2).2
  = (deregister_callback
       (deregister_callback (register_all (Callbacks_ctor 0) [noop; noop]) 2).2
       1).2.
Proof.
  assert (Hne : 1 <> 2) by discriminate.
  split; [exact Hne|].
  exact (proj1 (deregister_callback_commutes
                  (register_all (Callbacks_ctor 0) [noop; noop]) 1 2 Hne)).
Defined.

(** Two registrations and one deregistration on a zero counter: the ids
    issued are 1 and 2 and the next one is 3. *)
Lemma issued_ids_depend_on_registrations_only_witness :
  Reach 0 [1; 2]
    (deregister_callback (register_all (Callbacks_ctor 0) [noop; noop]) 1).2 /\
  (register_callback
     (deregister_callback (register_all (Callbacks_ctor 0) [noop; noop]) 1).2
     noop).1 = 3.
Proof.
  assert (Hreach : Reach 0 [1; 2]
    (deregister_callback (register_all (Callbacks_ctor 0) [noop; noop]) 1).2).
  { exact (Reach_deregister 0 _ _ 1
             (Reach_register 0 _ _ noop
                (Reach_register 0 _ _ noop (Reach_ctor 0)))). }
  split; [exact Hreach|].
  exact (proj2 (issued_ids_depend_on_registrations_only 0 [1; 2] _ noop Hreach)).
Defined.

(** A registry whose counter holds [INT_MAX] issues [INT_MIN] next. *)
Lemma register_callback_at_INT_MAX_witness :
  Int.in_range 2147483647 /\
  (register_callback
     ({| m_callbacks := []; m_lastAssignedCallback_ID := 2147483647 |}
        : Callbacks unit unit unit) noop).1 = -2147483648.
Proof.
  assert (Hrange : Int.in_range 2147483647)
    by (split; discriminate).
  split; [exact Hrange|].
  exact (register_callback_at_INT_MAX
           ({| m_callbacks := []; m_lastAssignedCallback_ID := 2147483647 |}
              : Callbacks unit unit unit) noop Hrange).
Defined.

(** After the handlers returning empty, [88], [89], a fourth handler is
    registered: the call still returns [88] after two executions. *)
Lemma invoke_until_non_empty_after_register_witness :
  Container.empty (Container.ctor : list Z) = true /\
  invokeCallbacksUntilOneOfThemReturnsANonEmptyContainer
    (register_callback three_handlers (counting [90])).2 tt (fresh 0%nat)
  = invokeCallbacksUntilOneOfThemReturnsANonEmptyContainer
      three_handlers tt (fresh 0%nat).
Proof.
  split; [reflexivity|].
  exact (invoke_until_non_empty_after_register
           three_handlers (counting [90]) tt (fresh 0%nat) eq_refl).
Defined.

(** The handlers answering false, false, true, false, with the third one
    deregistered: no later call of the until-true loop is to id 3. *)
Lemma deregistered_callback_is_never_called_witness :
  NoDup (ids four_answers) /\
  exists called,
    call_log (invokeCallbacksUntilOneOfThemReturnsANonZeroValue
                (deregister_callback four_answers 3).2 tt (fresh 0%nat)).2
      = call_log (fresh 0%nat) ++ calls_of called tt /\
    Forall (fun cb => m_id cb <> 3) called.
Proof.
  assert (Hnodup : NoDup (ids four_answers)) by exact NoDup_1_2_3_4.
  split; [exact Hnodup|].
  destruct deregistered_callback_is_never_called as (_ & _ & _ & Hbool).
  exact (Hbool nat unit four_answers 3 Hnodup tt (fresh 0%nat)).
Defined.

End CompositionScenarios.
